(** * Organizador: file matching, moving and undo ledger

    A shallow embedding of the file-operation core of [Organizador.py]
    ([get_matched_files], [_unique_dest], [move_files], [save_undo_record],
    [load_undo_record], [undo_last] and the background [worker] that links
    them), with the properties its specification states about them.

    The file system is a finite map from paths to nodes.  Operations of the
    Python standard library the program calls ([Path.exists], [Path.mkdir],
    [shutil.move], [Path.iterdir], ...) are given as functions on that map. *)

From Stdlib Require Import ZArith Ascii String List Lia.
From stdpp Require Import base option list strings pretty gmap fin_maps fin_sets.

Local Open Scope string_scope.
Local Open Scope list_scope.
Local Open Scope nat_scope.

(** ** Paths *)

Module PurePath.

(** A path is its list of components, the last component first: the path
    [/in/a.txt] is ["a.txt"; "in"], and the root is [[]].  The parent of
    a path is then the tail of the list and its name the head. *)
Abbreviation Path := (list string).

(** [Path.name] *)
Definition name (p : Path) : string :=
  match p with
  | [] => ""
  | n :: _ => n
  end.

(** [Path.parent]; the root is its own parent. *)
Definition parent (p : Path) : Path :=
  match p with
  | [] => []
  | _ :: d => d
  end.

(** [dir / filename], for a [filename] of one component; joining the empty
    string gives the directory itself. *)
Definition joinpath (d : Path) (filename : string) : Path :=
  if decide (filename = "") then d else filename :: d.

(** [str.rfind('.')], as [None] when there is no dot; [i] is the index of the
    first character of [s]. *)
Fixpoint rfind_dot (s : string) (i : nat) : option nat :=
  match s with
  | EmptyString => None
  | String c s' =>
      match rfind_dot s' (S i) with
      | Some j => Some j
      | None => if Ascii.eqb c "."%char then Some i else None
      end
  end.

(** The split point of [Path.suffix] and [Path.stem]: the last dot of the
    name, when it is neither the first nor the last character. *)
Definition suffix_index (nm : string) : option nat :=
  match rfind_dot nm 0 with
  | Some i =>
      if (0 <? i)%nat && (i <? String.length nm - 1)%nat then Some i else None
  | None => None
  end.

(** [Path.suffix] *)
Definition suffix (p : Path) : string :=
  let nm := name p in
  match suffix_index nm with
  | Some i => substring i (String.length nm - i) nm
  | None => ""
  end.

(** [Path.stem] *)
Definition stem (p : Path) : string :=
  let nm := name p in
  match suffix_index nm with
  | Some i => substring 0 i nm
  | None => nm
  end.

End PurePath.
Export PurePath.

(** ** The file system *)

(** A naive local [datetime], as a count of microseconds on the local
    calendar clock.  A file's [mtime] is the value of
    [datetime.fromtimestamp(p.stat().st_mtime)]; [None] stands for an entry
    whose [stat()] raises. *)
Definition datetime : Type := Z.

Inductive Node : Type :=
  | File (mtime : option datetime) (data : string)
  | Dir.

Global Instance Node_eq_dec : EqDecision Node.
Proof. solve_decision. Defined.

Abbreviation FS := (gmap Path Node).

(** The node at a path; the root always is a directory. *)
Definition node_at (fs : FS) (p : Path) : option Node :=
  match p with
  | [] => Some Dir
  | _ :: _ => fs !! p
  end.

(** [Path.exists] *)
Definition path_exists (fs : FS) (p : Path) : bool :=
  match node_at fs p with
  | Some _ => true
  | None => false
  end.

(** [Path.is_dir] *)
Definition is_dir (fs : FS) (p : Path) : bool :=
  match node_at fs p with
  | Some Dir => true
  | _ => false
  end.


(** ** Destination namer: [_unique_dest] *)

(** [dest_dir / f"{base} ({counter}){ext}"] *)
Definition candidate (dest_dir : Path) (base ext : string) (counter : nat) : Path :=
  joinpath dest_dir (base +:+ " (" +:+ pretty counter +:+ ")" +:+ ext).

(** The [while True] loop of [_unique_dest], with a bound on the number of
    probes; [None] when the bound is reached. *)
Fixpoint unique_dest_loop (fuel : nat) (fs : FS) (dest_dir : Path)
    (base ext : string) (counter : nat) : option Path :=
  match fuel with
  | O => None
  | S fuel' =>
      let candidate := candidate dest_dir base ext counter in
      if negb (path_exists fs candidate) then Some candidate
      else unique_dest_loop fuel' fs dest_dir base ext (S counter)
  end.

(** [_unique_dest(dest_dir, filename)].  The loop is given one probe more
    than the file system has entries; [_unique_dest_terminates] shows that
    this bound is never reached. *)
Definition _unique_dest (fs : FS) (dest_dir : Path) (filename : string) : option Path :=
  let dest_path := joinpath dest_dir filename in
  if negb (path_exists fs dest_path) then Some dest_path
  else
    let base := stem dest_path in
    let ext := suffix dest_path in
    unique_dest_loop (S (size fs)) fs dest_dir base ext 1.

(** ** Exceptions and results *)

Inductive exn : Type :=
  | FileNotFoundError
  | FileExistsError
  | NotADirectoryError
  | ShutilError          (* shutil.Error *)
  | ValueError.

Global Instance exn_eq_dec : EqDecision exn.
Proof. solve_decision. Defined.

Inductive result (A : Type) : Type :=
  | Return (a : A)
  | Raise (e : exn).
Arguments Return {A} a.
Arguments Raise {A} e.

(** ** Library operations that change the file system

    Each returns the file system it leaves behind together with its result,
    so that what a failing call has already done stays visible. *)

(** [os.mkdir(p)] *)
Definition os_mkdir (p : Path) (fs : FS) : FS * result unit :=
  if path_exists fs p then (fs, Raise FileExistsError)
  else
    match node_at fs (parent p) with
    | None => (fs, Raise FileNotFoundError)
    | Some Dir => (<[p := Dir]> fs, Return tt)
    | Some (File _ _) => (fs, Raise NotADirectoryError)
    end.

(** [Path.mkdir(parents=True, exist_ok=True)], following pathlib: try
    [os.mkdir]; on [FileNotFoundError] make the parent first and try again;
    any other [OSError] is dropped when the path is a directory already. *)
Fixpoint mkdir (p : Path) (fs : FS) : FS * result unit :=
  match os_mkdir p fs with
  | (fs1, Return _) => (fs1, Return tt)
  | (fs1, Raise FileNotFoundError) =>
      match p with
      | [] => (fs1, Raise FileNotFoundError)
      | _ :: par =>
          match mkdir par fs1 with
          | (fs2, Raise e) => (fs2, Raise e)
          | (fs2, Return _) =>
              match os_mkdir p fs2 with
              | (fs3, Return _) => (fs3, Return tt)
              | (fs3, Raise e) =>
                  if is_dir fs3 p then (fs3, Return tt) else (fs3, Raise e)
              end
          end
      end
  | (fs1, Raise e) =>
      if is_dir fs1 p then (fs1, Return tt) else (fs1, Raise e)
  end.

(** [p] is [src] or lies below it. *)
Definition under (src p : Path) : bool := bool_decide (src `suffix_of` p).

(** The path of [p] once the tree at [src] has become the tree at [dst]. *)
Definition rebase (src dst p : Path) : Path :=
  if under src p then take (length p - length src) p ++ dst else p.

Definition move_tree (src dst : Path) (fs : FS) : FS :=
  kmap (rebase src dst) fs.

(** [os.rename(src, real_dst)] with the copy-and-delete fallback that
    [shutil.move] applies when the rename is refused. *)
Definition rename_or_copy (src real_dst : Path) (fs : FS) : FS * result unit :=
  match node_at fs src with
  | None => (fs, Raise FileNotFoundError)
  | Some (File mtime data) =>
      match node_at fs (parent real_dst) with
      | Some Dir => (<[real_dst := File mtime data]> (delete src fs), Return tt)
      | Some (File _ _) => (fs, Raise NotADirectoryError)
      | None => (fs, Raise FileNotFoundError)
      end
  | Some Dir =>
      if under src real_dst then (fs, Raise ShutilError)
      else if path_exists fs real_dst then (fs, Raise FileExistsError)
      else
        (* a missing parent makes the rename fail; [copytree] then creates
           it with [os.makedirs] *)
        match mkdir (parent real_dst) fs with
        | (fs1, Return _) => (move_tree src real_dst fs1, Return tt)
        | (fs1, Raise e) => (fs1, Raise e)
        end
  end.

(** [shutil.move(src, dst)]: a [dst] that is a directory receives [src]
    inside it, under [src]'s own name. *)
Definition shutil_move (src dst : Path) (fs : FS) : FS * result unit :=
  if is_dir fs dst && bool_decide (src = dst) then (fs, Return tt)
  else
    let real_dst := if is_dir fs dst then joinpath dst (name src) else dst in
    if is_dir fs dst && path_exists fs real_dst then (fs, Raise ShutilError)
    else rename_or_copy src real_dst fs.

(** [Path.iterdir()]: the entries directly inside [dir], in the order the
    file system enumerates them. *)
Definition iterdir (dir : Path) (fs : FS) : list Path :=
  filter (λ p, p ≠ [] ∧ parent p = dir) (map_to_list fs).*1.

(** ** Matcher: [get_matched_files] *)

(** [str.lower()], on the ASCII letters. *)
Definition lower_ascii (c : ascii) : ascii :=
  let n := nat_of_ascii c in
  if (65 <=? n)%nat && (n <=? 90)%nat then ascii_of_nat (n + 32) else c.

Fixpoint lower (s : string) : string :=
  match s with
  | EmptyString => EmptyString
  | String c s' => String (lower_ascii c) (lower s')
  end.

(** [kw in s] for strings: [kw] occurs in [s] as a substring. *)
Fixpoint str_in (kw s : string) : bool :=
  String.prefix kw s ||
  match s with
  | EmptyString => false
  | String _ s' => str_in kw s'
  end.

Record Rule : Type := {
  source : Path;
  keywords : list string;
  destination : Path;
  date_filter_enabled : bool;
  start_date : option string;
  end_date : option string
}.

(** [end.replace(hour=23, minute=59, second=59)] keeps the date and the
    microseconds. *)
Definition day_us : Z := 86400000000.

Definition replace_235959 (d : datetime) : datetime :=
  ((d / day_us) * day_us + 86399000000 + d mod 1000000)%Z.

Section Matcher.

(** [datetime.strptime(s, "%Y-%m-%d")]; [None] when it raises [ValueError]. *)
Variable strptime : string → option datetime.

Definition _parse_date (date_str : option string) : result (option datetime) :=
  match date_str with
  | None => Return None
  | Some s =>
      if String.eqb s "" then Return None
      else
        match strptime s with
        | Some d => Return (Some d)
        | None => Raise ValueError
        end
  end.

(** The body of the [for p in source.iterdir()] loop: does [p] get appended
    to [matched]? *)
Definition scan_entry (fs : FS) (start end_ : option datetime)
    (keywords : list string) (p : Path) : bool :=
  match node_at fs p with
  | Some Dir => false                         (* p.is_dir(): continue *)
  | None | Some (File None _) => false        (* stat() raises: continue *)
  | Some (File (Some mtime) _) =>
      if match start with Some s => (mtime <? s)%Z | None => false end then false
      else if match end_ with Some e => (e <? mtime)%Z | None => false end then false
      else
        let name := lower (name p) in
        existsb (λ kw, negb (String.eqb kw "") && str_in kw name) keywords
  end.

Definition get_matched_files (org : Rule) (fs : FS) : result (list Path) :=
  let source := source org in
  let keywords := map lower (keywords org) in
  if negb (is_dir fs source) then Return []
  else
    match (if date_filter_enabled org then _parse_date (start_date org)
           else Return None) with
    | Raise e => Raise e
    | Return start =>
        match (if date_filter_enabled org then _parse_date (end_date org)
               else Return None) with
        | Raise e => Raise e
        | Return end_ =>
            let end_ := replace_235959 <$> end_ in
            Return (filter (λ p, scan_entry fs start end_ keywords p = true)
                           (iterdir source fs))
        end
    end.

End Matcher.

(** ** Move executor: [move_files] *)

Inductive Action : Type :=
  | Moved                  (* "moved" *)
  | WouldMove              (* "would_move" *)
  | Error (e : exn)        (* f"error: {e}" *)
  | SkippedNotFound        (* "skipped_not_found" *)
  | Restored.              (* "restored" *)

Global Instance Action_eq_dec : EqDecision Action.
Proof. solve_decision. Defined.

(** The dictionaries [{"source": ..., "dest": ..., "action": ...}] that
    [move_files] and [undo_last] produce and the ledger stores. *)
Record Outcome : Type := mkOutcome {
  op_source : Path;
  op_dest : Path;
  op_action : Action
}.

Global Instance Outcome_eq_dec : EqDecision Outcome.
Proof. solve_decision. Defined.

(** The record written to [UNDO_FILE]. *)
Record UndoRecord : Type := mkUndoRecord {
  timestamp : string;
  operations : list Outcome
}.

(** What the program acts on: the file system, the ledger slot [UNDO_FILE]
    (kept apart from the files that rules move) and the calls
    [(completed, total)] received so far by the progress callback, the
    latest last. *)
Record World : Type := mkWorld {
  fs : FS;
  undo_file : option UndoRecord;
  progress : list (nat * nat)
}.

Definition set_fs (fs' : FS) (w : World) : World :=
  mkWorld fs' (undo_file w) (progress w).

(** [if progress_callback: try: progress_callback(completed, total) except
    ...]: a callback, when one is given, is called; what it raises is
    dropped. *)
Definition notify (progress_callback : bool) (completed total : nat) (w : World) : World :=
  if progress_callback
  then mkWorld (fs w) (undo_file w) (progress w ++ [(completed, total)])
  else w.

(** The [try] block of the [for src in files] loop and its [except]: the new
    file system and the dictionary appended to [results]. *)
Definition move_one (dest_dir destination : Path) (dry_run : bool) (src : Path)
    (fs : FS) : option (FS * Outcome) :=
  dest_path ← _unique_dest fs dest_dir (name src);
  if dry_run then Some (fs, mkOutcome src dest_path WouldMove)
  else
    match shutil_move src dest_path fs with
    | (fs', Return _) => Some (fs', mkOutcome src dest_path Moved)
    | (fs', Raise e) => Some (fs', mkOutcome src destination (Error e))
    end.

Fixpoint move_loop (dest_dir destination : Path) (dry_run progress_callback : bool)
    (total : nat) (files : list Path) (completed : nat) (results : list Outcome)
    (w : World) : option (World * list Outcome) :=
  match files with
  | [] => Some (w, results)
  | src :: files' =>
      '(fs', r) ← move_one dest_dir destination dry_run src (fs w);
      let results := results ++ [r] in
      let completed := S completed in
      let w := notify progress_callback completed total (set_fs fs' w) in
      move_loop dest_dir destination dry_run progress_callback total
                files' completed results w
  end.

(** [move_files(files, destination, dry_run, progress_callback)];
    [progress_callback] tells whether a callback is given.  [None] would be
    a call that does not return. *)
Definition move_files (files : list Path) (destination : Path)
    (dry_run progress_callback : bool) (w : World)
    : option (World * result (list Outcome)) :=
  let dest_dir := destination in
  match mkdir dest_dir (fs w) with
  | (fs1, Raise e) => Some (set_fs fs1 w, Raise e)
  | (fs1, Return _) =>
      let total := length files in
      '(w', results) ← move_loop dest_dir destination dry_run progress_callback
                                 total files 0 [] (set_fs fs1 w);
      Some (w', Return results)
  end.

(** ** Undo ledger *)

(** [save_undo_record(record)]: the slot is overwritten. *)
Definition save_undo_record (record : UndoRecord) (w : World) : World :=
  mkWorld (fs w) (Some record) (progress w).

(** [load_undo_record()] *)
Definition load_undo_record (w : World) : option UndoRecord := undo_file w.

(** [Path(UNDO_FILE).unlink(missing_ok=True)] *)
Definition unlink_undo_file (w : World) : World :=
  mkWorld (fs w) None (progress w).

Inductive UndoResult : Type :=
  | UndoFailed                           (* {"ok": False, "error": ...} *)
  | UndoOk (results : list Outcome).     (* {"ok": True, "results": results} *)

(** The [try] block of the [for op in reversed(ops)] loop and its
    [except]. *)
Definition undo_one (op : Outcome) (fs : FS) : option (FS * Outcome) :=
  let src := op_dest op in
  let dest := op_source op in
  if negb (path_exists fs src) then Some (fs, mkOutcome src dest SkippedNotFound)
  else
    final_dest ← _unique_dest fs (parent dest) (name dest);
    match shutil_move src final_dest fs with
    | (fs', Return _) => Some (fs', mkOutcome src final_dest Restored)
    | (fs', Raise e) => Some (fs', mkOutcome src dest (Error e))
    end.

Fixpoint undo_loop (progress_callback : bool) (total : nat) (ops : list Outcome)
    (completed : nat) (results : list Outcome) (w : World)
    : option (World * list Outcome) :=
  match ops with
  | [] => Some (w, results)
  | op :: ops' =>
      '(fs', r) ← undo_one op (fs w);
      let results := results ++ [r] in
      let completed := S completed in
      let w := notify progress_callback completed total (set_fs fs' w) in
      undo_loop progress_callback total ops' completed results w
  end.

(** [undo_last(progress_callback)] *)
Definition undo_last (progress_callback : bool) (w : World)
    : option (World * UndoResult) :=
  match load_undo_record w with
  | None => Some (w, UndoFailed)
  | Some record =>
      let ops := operations record in
      let total := length ops in
      '(w', results) ← undo_loop progress_callback total (rev ops) 0 [] w;
      Some (unlink_undo_file w', UndoOk results)
  end.

(** ** The background worker of [_run_move_in_thread] *)

Inductive WorkerMessage : Type :=
  | Done (results : list Outcome)     (* ("done", results) *)
  | Failed (e : exn).                 (* ("error", str(e)) *)

(** [any(r.get("action") == "moved" for r in results)] *)
Definition any_moved (results : list Outcome) : bool :=
  existsb (λ r, bool_decide (op_action r = Moved)) results.

(** [worker()], with [now] for [datetime.utcnow().isoformat()]; its progress
    callback puts every call on the thread queue. *)
Definition worker (now : string) (matched_files : list Path) (org : Rule)
    (dry_run : bool) (w : World) : option (World * WorkerMessage) :=
  r ← move_files matched_files (destination org) dry_run true w;
  match r with
  | (w', Return results) =>
      let record := mkUndoRecord now results in
      let w' := if negb dry_run && any_moved results
                then save_undo_record record w' else w' in
      Some (w', Done results)
  | (w', Raise e) => Some (w', Failed e)
  end.

(** ** Example worlds *)

Module Scenario.

Definition a_txt : Path := ["a.txt"; "in"].
Definition b_txt : Path := ["b.txt"; "in"].
Definition c_txt : Path := ["c.txt"; "in"].
Definition out : Path := ["out"].

(** [/in] holds [a.txt] and [c.txt]; there is no [/in/b.txt] and no [/out]. *)
Definition fs_in : FS :=
  <[a_txt := File (Some 5%Z) "A"]>
    (<[c_txt := File (Some 7%Z) "C"]> (<[["in"] := Dir]> ∅)).

Definition w_in : World := mkWorld fs_in None [].

Definition org_in : Rule :=
  {| source := ["in"]; keywords := ["txt"]; destination := out;
     date_filter_enabled := false; start_date := None; end_date := None |}.

(** The same rule, an earlier batch being in the ledger. *)
Definition earlier : UndoRecord :=
  mkUndoRecord "t0" [mkOutcome ["x"; "in"] ["x"; "old"] Moved].

(** What a real run over [a.txt] and the missing [b.txt] returns and
    leaves behind. *)
Definition batch_ab : list Outcome :=
  [mkOutcome a_txt ["a.txt"; "out"] Moved;
   mkOutcome b_txt out (Error FileNotFoundError)].

Definition fs_ab : FS :=
  <[["a.txt"; "out"] := File (Some 5%Z) "A"]>
    (<[out := Dir]>
       (<[c_txt := File (Some 7%Z) "C"]> (<[["in"] := Dir]> ∅))).

Definition w_ab : World :=
  mkWorld fs_ab (Some (mkUndoRecord "t1" batch_ab)) [(1, 2); (2, 2)].

(** [/in] with an invoice, a note, a directory and an entry whose metadata
    cannot be read. *)
Definition fs_invoices : FS :=
  <[["Invoice_JAN.pdf"; "in"] := File (Some 1704880800000000%Z) "pdf"]>
    (<[["note.txt"; "in"] := File (Some 1704880800000000%Z) "txt"]>
       (<[["invoices"; "in"] := Dir]>
          (<[["invoice_locked.pdf"; "in"] := File None "?"]>
             (<[["in"] := Dir]> ∅)))).

(** An instance of [strptime] for the dates of the examples. *)
Definition strptime_ex (s : string) : option datetime :=
  if String.eqb s "2024-01-01" then Some 1704067200000000%Z
  else if String.eqb s "2024-02-01" then Some 1706745600000000%Z
  else None.

Definition org_invoices : Rule :=
  {| source := ["in"]; keywords := ["INVOICE"; ""]; destination := out;
     date_filter_enabled := true;
     start_date := Some "2024-01-01"; end_date := Some "" |}.

End Scenario.

(** ** The registry of rules kept by the application *)

(** [str.isspace()] for one character, on ASCII. *)
Definition isspace (c : ascii) : bool :=
  let n := nat_of_ascii c in
  ((9 <=? n) && (n <=? 13)) || ((28 <=? n) && (n <=? 32)).

(** [str.lstrip()], [str.rstrip()] and [str.strip()] *)
Fixpoint lstrip (s : string) : string :=
  match s with
  | EmptyString => EmptyString
  | String c s' => if isspace c then lstrip s' else s
  end.

Fixpoint rstrip (s : string) : string :=
  match s with
  | EmptyString => EmptyString
  | String c s' =>
      match rstrip s' with
      | EmptyString => if isspace c then EmptyString else String c EmptyString
      | r => String c r
      end
  end.

Definition strip (s : string) : string := rstrip (lstrip s).

(** [s.split(",")] *)
Fixpoint split_comma (s : string) : list string :=
  match s with
  | EmptyString => [EmptyString]
  | String c s' =>
      if Ascii.eqb c ","%char then EmptyString :: split_comma s'
      else
        match split_comma s' with
        | [] => [String c EmptyString]
        | piece :: pieces => String c piece :: pieces
        end
  end.

(** [", ".join(l)] *)
Fixpoint join_comma (l : list string) : string :=
  match l with
  | [] => ""
  | [x] => x
  | x :: l' => x +:+ ", " +:+ join_comma l'
  end.

(** [[k.strip().lower() for k in keywords.split(",") if k.strip()]] *)
Definition parse_keywords (keywords : string) : list string :=
  map (λ k, lower (strip k))
      (List.filter (λ k, negb (String.eqb (strip k) "")) (split_comma keywords)).



Module Registry.

(** A rule as the registry stores it: the dictionary with the keys
    ["source"], ["keywords"], ["destination"], ["date_filter_enabled"],
    ["start_date"] and ["end_date"]. *)
Record Org : Type := mkOrg {
  o_source : string;
  o_keywords : list string;
  o_destination : string;
  o_date_filter_enabled : bool;
  o_start_date : string;
  o_end_date : string
}.

Global Instance Org_eq_dec : EqDecision Org.
Proof. solve_decision. Defined.

(** The entry widgets and the checkbox of the creation frame. *)
Record Form : Type := mkForm {
  name_entry : string;
  source_entry : string;
  keywords_entry : string;
  dest_entry : string;
  date_filter_checkbox : bool;
  start_entry : string;
  end_entry : string
}.

(** The state of [App] that the registry methods read and write:
    [self.organizations], the content of [CONFIG_FILE],
    [self.editing_org_original_name] and the form. *)
Record App : Type := mkApp {
  organizations : gmap string Org;
  config_file : gmap string Org;
  editing_org_original_name : option string;
  form : Form
}.

(** The value of the combobox when there is no rule. *)
Definition placeholder : string := "Nenhuma organização criada".

(** [save_organizations_to_file()] *)
Definition save_organizations_to_file (app : App) : App :=
  mkApp (organizations app) (organizations app)
        (editing_org_original_name app) (form app).

Definition set_organizations (orgs : gmap string Org) (app : App) : App :=
  mkApp orgs (config_file app) (editing_org_original_name app) (form app).

(** [show_main_frame()], as far as the state goes. *)
Definition show_main_frame (app : App) : App :=
  mkApp (organizations app) (config_file app) None (form app).

(** [show_creation_frame()]: the form is emptied. *)
Definition show_creation_frame (app : App) : App :=
  mkApp (organizations app) (config_file app) None
        (mkForm "" "" "" "" false "" "").

(** Which dialog a method ends with. *)
Inductive Dialog : Type :=
  | ErrorRequired              (* "Nome, origem, palavras-chave e destino ..." *)
  | ErrorDateFormat (d : string)
  | Declined                   (* askyesno answered no: nothing is said *)
  | Warning                    (* "Selecione uma organização válida." *)
  | ErrorNotFound              (* "Organização não encontrada." *)
  | ErrorImport
  | Info (text : string)
  | Silent.                    (* the creation frame is shown *)

Section Methods.

(** [datetime.strptime(d, "%Y-%m-%d")], [None] when it raises
    [ValueError]. *)
Variable strptime : string → option datetime.

(** The first of the dates that is not empty and that [strptime] refuses. *)
Fixpoint first_bad_date (dates : list string) : option string :=
  match dates with
  | [] => None
  | d :: dates' =>
      if negb (String.eqb d "") && negb (bool_decide (is_Some (strptime d)))
      then Some d
      else first_bad_date dates'
  end.

(** [save_organization()]; [askyesno] is the answer the user gives if asked
    whether to overwrite. *)
Definition save_organization (askyesno : bool) (app : App) : App * Dialog :=
  let name := strip (name_entry (form app)) in
  let source := strip (source_entry (form app)) in
  let keywords := strip (keywords_entry (form app)) in
  let dest := strip (dest_entry (form app)) in
  let date_enabled := date_filter_checkbox (form app) in
  let start := strip (start_entry (form app)) in
  let end_ := strip (end_entry (form app)) in
  if negb (forallb (λ x, negb (String.eqb x "")) [name; source; keywords; dest])
  then (app, ErrorRequired)
  else
    match (if date_enabled then first_bad_date [start; end_] else None) with
    | Some d => (app, ErrorDateFormat d)
    | None =>
        let commit (orgs : gmap string Org) :=
          let orgs :=
            <[name := mkOrg source (parse_keywords keywords) dest date_enabled
                            start end_]> orgs in
          (show_main_frame
             (save_organizations_to_file (set_organizations orgs app)),
           Info name) in
        let exists_ := bool_decide (is_Some (organizations app !! name)) in
        match editing_org_original_name app with
        | Some original =>
            if String.eqb original "" then
              (* an empty name counts as no name *)
              if exists_ && negb askyesno then (app, Declined)
              else commit (organizations app)
            else if negb (String.eqb name original) && exists_ && negb askyesno
            then (app, Declined)
            else if negb (String.eqb name original)
            then commit (delete original (organizations app))
            else commit (organizations app)
        | None =>
            if exists_ && negb askyesno then (app, Declined)
            else commit (organizations app)
        end
    end.

End Methods.

(** [delete_organization()]; [org_name] is the value of the combobox. *)
Definition delete_organization (org_name : string) (askyesno : bool)
    (app : App) : App * Dialog :=
  if String.eqb org_name "" || String.eqb org_name placeholder
  then (app, Warning)
  else if negb (bool_decide (is_Some (organizations app !! org_name)))
  then (app, ErrorNotFound)
  else if negb askyesno then (app, Declined)
  else
    (save_organizations_to_file
       (set_organizations (delete org_name (organizations app)) app),
     Info org_name).

(** [edit_organization()]: the form is filled from the rule. *)
Definition edit_organization (org_name : string) (app : App) : App * Dialog :=
  if String.eqb org_name "" || String.eqb org_name placeholder
  then (app, Warning)
  else
    match organizations app !! org_name with
    | None => (app, ErrorNotFound)
    | Some org =>
        let enabled := o_date_filter_enabled org in
        (mkApp (organizations app) (config_file app) (Some org_name)
           (mkForm org_name (o_source org) (join_comma (o_keywords org))
                   (o_destination org) enabled
                   (if enabled then o_start_date org else "")
                   (if enabled then o_end_date org else "")),
         Silent)
    end.

(** The [while new_name in self.organizations] loop of
    [duplicate_organization], with a bound on the number of turns. *)
Fixpoint duplicate_loop (fuel : nat) (orgs : gmap string Org)
    (base_name : string) (i : nat) (new_name : string) : option string :=
  match fuel with
  | O => None
  | S fuel' =>
      if bool_decide (is_Some (orgs !! new_name))
      then
        let i := S i in
        let new_name := base_name +:+ " " +:+ pretty i in
        duplicate_loop fuel' orgs base_name i new_name
      else Some new_name
  end.

(** [duplicate_organization()].  The loop is given one turn more than there
    are rules; [None] would be a call that does not return. *)
Definition duplicate_organization (org_name : string) (app : App)
    : option (App * Dialog) :=
  match organizations app !! org_name with
  | None => Some (app, Warning)
  | Some org =>
      if String.eqb org_name placeholder then Some (app, Warning)
      else
        let base_name := org_name +:+ " (cópia)" in
        new_name ← duplicate_loop (S (size (organizations app)))
                     (organizations app) base_name 1 base_name;
        Some (save_organizations_to_file
                (set_organizations (<[new_name := org]> (organizations app)) app),
              Info new_name)
  end.

(** [export_organization()]: the dictionary written to the chosen file,
    [None] when nothing is written; [path_chosen] tells whether the user has
    chosen a file. *)
Definition export_organization (org_name : string) (path_chosen : bool)
    (app : App) : option (list (string * Org)) :=
  match organizations app !! org_name with
  | None => None
  | Some org =>
      if String.eqb org_name placeholder then None
      else if path_chosen then Some [(org_name, org)] else None
  end.

(** The [for k, v in data.items()] loop of [import_organization];
    [askyesno k] is the answer the user gives if asked whether to overwrite
    the rule [k]. *)
Fixpoint import_loop (askyesno : string → bool) (items : list (string * Org))
    (orgs : gmap string Org) (added : nat) : gmap string Org * nat :=
  match items with
  | [] => (orgs, added)
  | (k, v) :: items' =>
      if bool_decide (is_Some (orgs !! k)) && negb (askyesno k)
      then import_loop askyesno items' orgs added
      else import_loop askyesno items' (<[k := v]> orgs) (S added)
  end.

(** [import_organization()]; [data] is what [json.load] returns for the
    chosen file, its values taken to be rule dictionaries: [None] when no
    file is chosen, [Some None] when reading it raises. *)
Definition import_organization (data : option (option (list (string * Org))))
    (askyesno : string → bool) (app : App) : App * Dialog * nat :=
  match data with
  | None => (app, Silent, 0)
  | Some None => (app, ErrorImport, 0)
  | Some (Some items) =>
      let '(orgs, added) := import_loop askyesno items (organizations app) 0 in
      (save_organizations_to_file (set_organizations orgs app),
       Info (pretty added), added)
  end.



End Registry.

(** ** Example worlds and registries for the further properties *)

Module Cases.

Import Scenario Registry.




(** The ledger names a file that is no longer where the batch has put it. *)
Definition w_earlier : World := mkWorld fs_in (Some earlier) [].

(** A rule as the registry keeps it, and the form a user fills for it. *)
Definition org_kept : Org :=
  mkOrg "/in" ["invoice"; "pdf"] "/out" true "2024-01-01" "".

Definition org_logs : Org := mkOrg "/var" ["log"] "/logs" false "" "".

Definition form_invoices : Form :=
  mkForm " Invoices " "/in" "Invoice, PDF ,," "/out " true "2024-01-01" "".

Definition form_empty : Form := mkForm "" "" "" "" false "" "".


Definition app_kept : App :=
  mkApp (<["Invoices" := org_kept]> (<["Logs" := org_logs]> ∅))
        (<["Invoices" := org_kept]> (<["Logs" := org_logs]> ∅))
        None form_empty.

(** The rule ["Old"] is being edited; the form gives it a new name. *)
Definition app_renaming : App :=
  mkApp (<["Old" := org_logs]> (<["Logs" := org_logs]> ∅))
        (<["Old" := org_logs]> (<["Logs" := org_logs]> ∅))
        (Some "Old") form_invoices.

(** The form with the text of the empty combobox as the name. *)
Definition app_placeholder : App :=
  mkApp ∅ ∅ None (mkForm placeholder "/in" "pdf" "/out" false "" "").

(** The content of a file to import: one name that [app_kept] has, one
    that it has not. *)
Definition items_import : list (string * Org) :=
  [("Invoices", org_logs); ("Notes", org_logs)].

End Cases.
(** * Properties *)

(** ** Strings and paths *)

Section Strings.

Lemma append_String (a : ascii) (s t : string) :
  String a s +:+ t = String a (s +:+ t).
Proof. reflexivity. Qed.

Lemma length_append (s t : string) :
  String.length (s +:+ t) = String.length s + String.length t.
Proof.
  induction s as [|a s IH]; [reflexivity|].
  rewrite append_String. simpl. by rewrite IH.
Qed.

(** Appending the same string on the right is injective. *)
Lemma append_inj_l (t s1 s2 : string) : s1 +:+ t = s2 +:+ t → s1 = s2.
Proof.
  revert s2. induction s1 as [|a s1 IH]; intros [|b s2] Heq.
  - reflexivity.
  - apply (f_equal String.length) in Heq.
    rewrite !length_append in Heq. simpl in Heq. lia.
  - apply (f_equal String.length) in Heq.
    rewrite !length_append in Heq. simpl in Heq. lia.
  - rewrite !append_String in Heq. injection Heq as -> Heq.
    f_equal. by apply IH.
Qed.

Lemma append_nonempty (s : string) (c : ascii) (t : string) :
  s +:+ String c t ≠ "".
Proof. destruct s; [|rewrite append_String]; discriminate. Qed.

End Strings.

Lemma joinpath_nonempty (d : Path) (f : string) :
  f ≠ "" → joinpath d f = f :: d.
Proof. intros Hf. unfold joinpath. by destruct (decide (f = "")). Qed.

Lemma candidate_cons (d : Path) (base ext : string) (n : nat) :
  candidate d base ext n = (base +:+ " (" +:+ pretty n +:+ ")" +:+ ext) :: d.
Proof. apply joinpath_nonempty, append_nonempty. Qed.

(** Distinct counters give distinct candidates. *)
Lemma candidate_inj (d : Path) (base ext : string) :
  Inj (=) (=) (candidate d base ext).
Proof.
  intros n m Heq. rewrite !candidate_cons in Heq.
  injection Heq as Heq.
  apply (inj (String.append base)), (inj (String.append " (")) in Heq.
  apply append_inj_l in Heq. by apply (inj pretty) in Heq.
Qed.

(** A candidate exists exactly when the map has an entry for it. *)
Lemma candidate_exists (fs : FS) (d : Path) (base ext : string) (n : nat) :
  path_exists fs (candidate d base ext n) = true ↔
  candidate d base ext n ∈ dom fs.
Proof.
  rewrite candidate_cons, elem_of_dom. unfold path_exists, node_at.
  destruct (fs !! _); split; intros H; try done; by destruct H.
Qed.

(** ** Destination namer *)

Section Namer.

Variables (fs : FS) (d : Path) (base ext : string).

(** What the probing loop returns is the first free candidate from
    [counter] on. *)
Lemma unique_dest_loop_Some (fuel counter : nat) (p : Path) :
  unique_dest_loop fuel fs d base ext counter = Some p →
  ∃ n, counter ≤ n ∧ p = candidate d base ext n ∧
       path_exists fs p = false ∧
       ∀ m, counter ≤ m < n → path_exists fs (candidate d base ext m) = true.
Proof.
  revert counter. induction fuel as [|fuel IH]; intros counter; simpl; [done|].
  destruct (path_exists fs (candidate d base ext counter)) eqn:Hc; simpl.
  - intros (n & Hn & -> & Hfree & Hbusy)%IH.
    exists n. split_and!; [lia|done|done|].
    intros m Hm. destruct (decide (m = counter)) as [->|]; [done|].
    apply Hbusy. lia.
  - intros [= <-]. exists counter. split_and!; [done..|]. intros m Hm. lia.
Qed.

(** The loop gives up only when every candidate it probed exists. *)
Lemma unique_dest_loop_None (fuel counter : nat) :
  unique_dest_loop fuel fs d base ext counter = None →
  ∀ m, counter ≤ m < counter + fuel →
       path_exists fs (candidate d base ext m) = true.
Proof.
  revert counter. induction fuel as [|fuel IH]; intros counter; simpl.
  - intros _ m Hm. lia.
  - destruct (path_exists fs (candidate d base ext counter)) eqn:Hc; simpl; [|done].
    intros Hloop m Hm. destruct (decide (m = counter)) as [->|]; [done|].
    apply (IH _ Hloop). lia.
Qed.

(** A file system has fewer entries than [S (size fs)] distinct candidates:
    one of them is free. *)
Lemma candidates_not_all_exist (counter : nat) :
  ¬ ∀ m, counter ≤ m < counter + S (size fs) →
         path_exists fs (candidate d base ext m) = true.
Proof.
  intros Hall.
  pose (cs := candidate d base ext <$> seq counter (S (size fs))).
  assert (Hsub : list_to_set (C := gset Path) cs ⊆ dom fs).
  { intros p [n [-> Hn]]%elem_of_list_to_set%list_elem_of_fmap.
    apply candidate_exists, Hall. apply elem_of_seq in Hn. lia. }
  apply subseteq_size in Hsub.
  rewrite size_list_to_set, size_dom in Hsub.
  - unfold cs in Hsub. rewrite length_fmap, length_seq in Hsub. lia.
  - apply NoDup_fmap_2; [apply candidate_inj | apply NoDup_seq].
Qed.

Lemma unique_dest_loop_enough (counter : nat) :
  is_Some (unique_dest_loop (S (size fs)) fs d base ext counter).
Proof.
  destruct (unique_dest_loop _ _ _ _ _ counter) eqn:Hloop; [by eexists|].
  destruct (candidates_not_all_exist counter).
  by apply unique_dest_loop_None.
Qed.

End Namer.

(** [_unique_dest] always returns. *)
Lemma _unique_dest_terminates (fs : FS) (dest_dir : Path) (filename : string) :
  is_Some (_unique_dest fs dest_dir filename).
Proof.
  unfold _unique_dest.
  destruct (path_exists fs (joinpath dest_dir filename)); cbn [negb]; [|by eexists].
  apply unique_dest_loop_enough.
Qed.

(** The path it returns does not exist. *)
Lemma _unique_dest_free (fs : FS) (dest_dir : Path) (filename : string) (p : Path) :
  _unique_dest fs dest_dir filename = Some p → path_exists fs p = false.
Proof.
  unfold _unique_dest.
  destruct (path_exists fs (joinpath dest_dir filename)) eqn:He; cbn [negb].
  - by intros (n & _ & _ & Hfree & _)%unique_dest_loop_Some.
  - by intros [= <-].
Qed.


(** ** Creating the destination directory *)

Lemma is_dir_exists (fs : FS) (p : Path) :
  is_dir fs p = true → path_exists fs p = true.
Proof. unfold is_dir, path_exists. by destruct (node_at fs p) as [[]|]. Qed.

Lemma path_exists_cons_false (fs : FS) (c : string) (par : Path) :
  path_exists fs (c :: par) = false ↔ fs !! (c :: par) = None.
Proof.
  unfold path_exists, node_at. by destruct (fs !! (c :: par)).
Qed.

Lemma set_fs_id (w : World) : set_fs (fs w) w = w.
Proof. by destruct w. Qed.

Lemma os_mkdir_Raise (p : Path) (fs fs' : FS) (e : exn) :
  os_mkdir p fs = (fs', Raise e) → fs' = fs.
Proof.
  unfold os_mkdir. destruct (path_exists fs p); [by intros [= <-]|].
  destruct (node_at fs (parent p)) as [[]|]; by intros [= <-].
Qed.

(** Where [os.mkdir] reports a missing parent, the path itself is missing
    too. *)
Lemma os_mkdir_not_found (p : Path) (fs fs' : FS) :
  os_mkdir p fs = (fs', Raise FileNotFoundError) → path_exists fs p = false.
Proof.
  unfold os_mkdir. destruct (path_exists fs p); [by intros [=]|done].
Qed.

Lemma os_mkdir_Return (p : Path) (fs fs' : FS) :
  os_mkdir p fs = (fs', Return tt) →
  path_exists fs p = false ∧ is_dir fs (parent p) = true ∧ fs' = <[p := Dir]> fs.
Proof.
  unfold os_mkdir, is_dir. destruct (path_exists fs p); [by intros [=]|].
  destruct (node_at fs (parent p)) as [[]|]; by intros [= <-].
Qed.

Lemma mkdir_root (fs : FS) : mkdir [] fs = (fs, Return tt).
Proof. reflexivity. Qed.

(** The [exist_ok] test changes nothing. *)
Lemma exist_ok_unchanged (fs fs' : FS) (p : Path) (e : exn) (r : result unit) :
  (if is_dir fs p then (fs, Return tt) else (fs, Raise e)) = (fs', r) → fs' = fs.
Proof. destruct (is_dir fs p); by intros [= <- _]. Qed.


Lemma node_at_insert_eq (fs : FS) (p : Path) (n : Node) :
  p ≠ [] → node_at (<[p := n]> fs) p = Some n.
Proof. destruct p; [done|]. intros _. simpl. by rewrite lookup_insert_eq. Qed.

(** [mkdir] only adds directories, at the path or above it, where nothing
    was. *)
Lemma mkdir_lookup (p : Path) (fs fs' : FS) (r : result unit) :
  mkdir p fs = (fs', r) →
  ∀ q, fs' !! q = fs !! q ∨
       (q `suffix_of` p ∧ fs !! q = None ∧ fs' !! q = Some Dir).
Proof.
  revert fs fs' r. induction p as [|c par IH]; intros fs fs' r.
  { rewrite mkdir_root. intros [= <- _] q. by left. }
  simpl. destruct (os_mkdir (c :: par) fs) as [fs1 [[]|e]] eqn:Hos.
  - apply os_mkdir_Return in Hos as (Hfree%path_exists_cons_false & _ & ->).
    intros [= <- _] q. destruct (decide (q = c :: par)) as [->|Hne].
    + right. by rewrite lookup_insert_eq.
    + left. by rewrite lookup_insert_ne.
  - pose proof (os_mkdir_Raise _ _ _ _ Hos) as ->.
    destruct e; try (intros ->%exist_ok_unchanged q; by left).
    apply os_mkdir_not_found, path_exists_cons_false in Hos.
    destruct (mkdir par fs) as [fs2 [[]|e2]] eqn:Hpar.
    + specialize (IH _ _ _ Hpar).
      assert (Hlift : ∀ q, q ≠ c :: par →
        fs2 !! q = fs !! q ∨
        (q `suffix_of` c :: par ∧ fs !! q = None ∧ fs2 !! q = Some Dir)).
      { intros q _. destruct (IH q) as [?|(Hsuf & ? & ?)]; [by left|].
        right. split_and!; [by apply suffix_cons_r|done..]. }
      destruct (os_mkdir (c :: par) fs2) as [fs3 [[]|e3]] eqn:Hos2.
      * apply os_mkdir_Return in Hos2 as (_ & _ & ->).
        intros [= <- _] q. destruct (decide (q = c :: par)) as [->|Hne].
        -- right. by rewrite lookup_insert_eq.
        -- rewrite lookup_insert_ne by done. by apply Hlift.
      * apply os_mkdir_Raise in Hos2 as ->.
        intros ->%exist_ok_unchanged q.
        destruct (decide (q = c :: par)) as [->|Hne]; [|by apply Hlift].
        left. destruct (IH (c :: par)) as [?|(Hsuf & _)]; [done|].
        apply suffix_length in Hsuf. simpl in Hsuf. lia.
    + intros [= <- _] q.
      destruct (IH _ _ _ Hpar q) as [?|(Hsuf & ? & ?)]; [by left|].
      right. split_and!; [by apply suffix_cons_r|done..].
Qed.



(** A successful [mkdir] leaves a directory at the path. *)
Lemma mkdir_Return_is_dir (p : Path) (fs fs' : FS) :
  mkdir p fs = (fs', Return tt) → is_dir fs' p = true.
Proof.
  destruct p as [|c par]; [done|]. simpl.
  assert (Hins : ∀ m : FS, is_dir (<[c :: par := Dir]> m) (c :: par) = true).
  { intros m. unfold is_dir. by rewrite node_at_insert_eq. }
  assert (Hrest : ∀ (m : FS) e',
    (if is_dir m (c :: par) then (m, Return tt) else (m, Raise e'))
      = (fs', Return tt) → is_dir fs' (c :: par) = true).
  { intros m e'. destruct (is_dir m (c :: par)) eqn:Hd; by intros [= <-]. }
  destruct (os_mkdir (c :: par) fs) as [fs1 [[]|e]] eqn:Hos.
  - apply os_mkdir_Return in Hos as (_ & _ & ->). by intros [= <-].
  - apply os_mkdir_Raise in Hos as ->.
    destruct e; try apply Hrest.
    destruct (mkdir par fs) as [fs2 [[]|e2]]; [|done].
    destruct (os_mkdir (c :: par) fs2) as [fs3 [[]|e3]] eqn:Hos2.
    + apply os_mkdir_Return in Hos2 as (_ & _ & ->). by intros [= <-].
    + apply os_mkdir_Raise in Hos2 as ->. apply Hrest.
Qed.

(** A [mkdir] that raises has created nothing. *)
Lemma mkdir_Raise_unchanged (p : Path) (fs fs' : FS) (e : exn) :
  mkdir p fs = (fs', Raise e) → fs' = fs.
Proof.
  revert fs fs' e. induction p as [|c par IH]; intros fs fs' e.
  { by rewrite mkdir_root. }
  simpl. destruct (os_mkdir (c :: par) fs) as [fs1 [[]|e1]] eqn:Hos;
    [by intros [=]|].
  pose proof (os_mkdir_Raise _ _ _ _ Hos) as ->.
  destruct e1; try apply exist_ok_unchanged.
  destruct (mkdir par fs) as [fs2 [[]|e2]] eqn:Hpar.
  - (* the parent has been made: [os.mkdir] now succeeds *)
    pose proof (mkdir_Return_is_dir _ _ _ Hpar) as Hdir.
    apply os_mkdir_not_found, path_exists_cons_false in Hos.
    assert (Hfree : path_exists fs2 (c :: par) = false).
    { apply path_exists_cons_false.
      destruct (mkdir_lookup _ _ _ _ Hpar (c :: par)) as [->|(Hsuf & _)];
        [done|].
      apply suffix_length in Hsuf. simpl in Hsuf. lia. }
    unfold os_mkdir. rewrite Hfree. cbn [parent].
    unfold is_dir in Hdir. by destruct (node_at fs2 par) as [[]|].
  - intros [= <- <-]. by apply IH in Hpar.
Qed.


(** ** Move executor *)

Lemma fs_notify (cb : bool) (c t : nat) (w : World) : fs (notify cb c t w) = fs w.
Proof. by destruct cb. Qed.

Lemma undo_file_notify (cb : bool) (c t : nat) (w : World) :
  undo_file (notify cb c t w) = undo_file w.
Proof. by destruct cb. Qed.

Lemma move_one_total (d dst : Path) (dry : bool) (src : Path) (fs : FS) :
  is_Some (move_one d dst dry src fs).
Proof.
  unfold move_one.
  destruct (_unique_dest_terminates fs d (name src)) as [p ->]. simpl.
  destruct dry; [by eexists|].
  destruct (shutil_move src p fs) as [fs' [[]|e]]; by eexists.
Qed.

(** The dictionary a file gets: its own path as source, and as action
    [would_move] in a dry run, else [moved] or an error, whose [dest] is the
    destination directory. *)
Lemma move_one_outcome (d dst : Path) (dry : bool) (src : Path) (fs fs' : FS)
    (r : Outcome) :
  move_one d dst dry src fs = Some (fs', r) →
  op_source r = src ∧
  if dry then fs' = fs ∧ op_action r = WouldMove
  else op_action r = Moved ∨ (∃ e, op_action r = Error e) ∧ op_dest r = dst.
Proof.
  unfold move_one. destruct (_unique_dest fs d (name src)) as [p|]; [|done].
  simpl. destruct dry; [by intros [= <- <-]|].
  destruct (shutil_move src p fs) as [fs1 [[]|e]]; intros [= <- <-]; simpl;
    eauto.
Qed.

Section MoveLoop.

Variables (d dst : Path) (dry cb : bool) (total : nat).

(** The loop returns, having added to [results] one dictionary per file, in
    the order of [files]; it leaves the ledger alone. *)
Lemma move_loop_spec (files : list Path) (c : nat) (rs : list Outcome) (w : World) :
  ∃ w' new,
    move_loop d dst dry cb total files c rs w = Some (w', rs ++ new) ∧
    op_source <$> new = files ∧
    undo_file w' = undo_file w ∧
    (dry = true → fs w' = fs w) ∧
    Forall (λ r, if dry then op_action r = WouldMove
                 else op_action r = Moved ∨
                      (∃ e, op_action r = Error e) ∧ op_dest r = dst) new.
Proof.
  revert c rs w. induction files as [|src files IH]; intros c rs w; simpl.
  { exists w, []. by rewrite app_nil_r. }
  destruct (move_one_total d dst dry src (fs w)) as [[fs' r] Hone].
  rewrite Hone. simpl.
  apply move_one_outcome in Hone as [Hsrc Hact].
  destruct (IH (S c) (rs ++ [r]) (notify cb (S c) total (set_fs fs' w)))
    as (w' & new & -> & Hsrcs & Hundo & Hfs & Hall).
  exists w', (r :: new). split_and!.
  - by rewrite <- app_assoc.
  - by rewrite fmap_cons, Hsrc, Hsrcs.
  - by rewrite Hundo, undo_file_notify.
  - intros ->. destruct Hact as [-> _]. by rewrite Hfs, fs_notify.
  - constructor; [|done]. destruct dry; [by destruct Hact|done].
Qed.

End MoveLoop.



(** The [dest] that [move_files] records for a file it could not move is not
    a path of that file: it is the destination directory. *)
Lemma move_files_error_dest (files : list Path) (destination : Path) (cb : bool)
    (w w' : World) (results : list Outcome) (r : Outcome) (e : exn) :
  move_files files destination false cb w = Some (w', Return results) →
  r ∈ results → op_action r = Error e → op_dest r = destination.
Proof.
  unfold move_files.
  destruct (mkdir destination (fs w)) as [fs1 [[]|e1]]; [|done].
  destruct (move_loop_spec destination destination false cb (length files)
              files 0 [] (set_fs fs1 w))
    as (w1 & new & -> & _ & _ & _ & Hall).
  simpl. intros [= _ <-] Hin Herr.
  rewrite Forall_forall in Hall. destruct (Hall r Hin) as [Hm|[_ Hd]]; [|done].
  congruence.
Qed.

(** C10.  When the destination directory cannot be created, [move_files]
    raises that error and the world is as before the call: no file moved, no
    directory made, no progress call, no outcome list. *)
Theorem move_files_mkdir_failure (files : list Path) (destination : Path)
    (dry_run cb : bool) (w : World) (fs1 : FS) (e : exn) :
  mkdir destination (fs w) = (fs1, Raise e) →
  move_files files destination dry_run cb w = Some (w, Raise e).
Proof.
  intros Hmk. unfold move_files. rewrite Hmk.
  apply mkdir_Raise_unchanged in Hmk as ->. by rewrite set_fs_id.
Qed.


(** ** Undo ledger *)






(** ** The worker and the ledger *)


(** C4, as the code has it.  A real run of the worker ends with a message;
    when it is [("done", results)], the ledger holds the record of all of
    [results] if one of them is [moved], and is what it was before the run
    if none is; when [move_files] raised, the ledger is what it was. *)
Theorem worker_saves_when_moved (now : string) (matched_files : list Path)
    (org : Rule) (w : World) :
  ∃ w' msg,
    worker now matched_files org false w = Some (w', msg) ∧
    match msg with
    | Done results =>
        op_source <$> results = matched_files ∧
        undo_file w' =
          if any_moved results then Some (mkUndoRecord now results)
          else undo_file w
    | Failed _ => undo_file w' = undo_file w
    end.
Proof.
  unfold worker, move_files.
  destruct (mkdir (destination org) (fs w)) as [fs1 [[]|e]] eqn:Hmk; simpl.
  - destruct (move_loop_spec (destination org) (destination org) false true
                (length matched_files) matched_files 0 [] (set_fs fs1 w))
      as (w' & results & -> & Hsrc & Hundo & _ & _).
    simpl. eexists _, (Done results). split; [done|]. split; [done|].
    by destruct (any_moved results).
  - by eexists _, (Failed e).
Qed.

(** ** Matcher *)






Section MatcherProperties.

Variable strptime : string → option datetime.



End MatcherProperties.

(** C7.  With the date filter off, [start_date] and [end_date] have no part
    in the result: two rules that differ in them only give the same result
    on the same file system, whatever the two fields hold. *)
Theorem date_fields_ignored_when_disabled (strptime : string → option datetime)
    (src : Path) (kws : list string) (dst : Path)
    (sd ed sd' ed' : option string) (fs : FS) :
  get_matched_files strptime (Build_Rule src kws dst false sd ed) fs =
  get_matched_files strptime (Build_Rule src kws dst false sd' ed') fs.
Proof. reflexivity. Qed.

(** ** Round trip of a batch without errors *)


(** Renaming a regular file makes no directory and removes none. *)
Lemma is_dir_rename_file (fs : FS) (p src : Path) (mtime : option datetime)
    (data : string) (q : Path) :
  fs !! p = None → fs !! src = Some (File mtime data) →
  is_dir (<[p := File mtime data]> (delete src fs)) q = is_dir fs q.
Proof.
  intros Hp Hsrc. destruct q as [|c q]; [done|]. unfold is_dir, node_at.
  destruct (decide (p = c :: q)) as [<-|Hne].
  { by rewrite lookup_insert_eq, Hp. }
  rewrite lookup_insert_ne by done.
  destruct (decide (src = c :: q)) as [<-|Hne2].
  { by rewrite lookup_delete_eq, Hsrc. }
  by rewrite lookup_delete_ne.
Qed.



Section RoundTrip.

Variables (d dst : Path) (cb : bool) (total : nat).


End RoundTrip.




(** * Further properties of the file operations *)

(** ** What the matcher returns, and when it raises *)

Section MatcherMore.

Variable strptime : string → option datetime.








End MatcherMore.

(** ** Progress calls *)

Lemma progress_notify (cb : bool) (c t : nat) (w : World) :
  progress (notify cb c t w) =
  progress w ++ (if cb then [(c, t)] else []).
Proof. destruct cb; simpl; [done|by rewrite app_nil_r]. Qed.

Lemma move_loop_progress (d dst : Path) (dry cb : bool) (total : nat)
    (files : list Path) :
  ∀ c rs w w' rs',
    move_loop d dst dry cb total files c rs w = Some (w', rs') →
    progress w' =
    progress w ++
      (if cb then (λ i, (i, total)) <$> seq (S c) (length files) else []).
Proof.
  induction files as [|src files IH]; intros c rs w w' rs'; simpl.
  { intros [= <- _]. destruct cb; by rewrite app_nil_r. }
  destruct (move_one d dst dry src (fs w)) as [[fs' r]|]; [|done]. simpl.
  intros ->%IH. rewrite progress_notify. simpl.
  destruct cb; by rewrite <- app_assoc.
Qed.

(** After each file, moved or not, [move_files] calls the progress callback
    once: with [(1, n)], [(2, n)], ..., [(n, n)] for [n] files, in this
    order; without a callback nothing is called. *)
Theorem move_files_progress (files : list Path) (destination : Path)
    (dry_run cb : bool) (w w' : World) (results : list Outcome) :
  move_files files destination dry_run cb w = Some (w', Return results) →
  progress w' =
  progress w ++
    (if cb then (λ i, (i, length files)) <$> seq 1 (length files) else []).
Proof.
  unfold move_files.
  destruct (mkdir destination (fs w)) as [fs1 [[]|e]]; [|done].
  destruct (move_loop _ _ _ _ _ _ _ _ _) as [[w1 rs]|] eqn:Hloop; [|done].
  simpl. intros [= <- _]. by apply move_loop_progress in Hloop.
Qed.

Lemma undo_loop_progress (cb : bool) (total : nat) (ops : list Outcome) :
  ∀ c rs w w' rs',
    undo_loop cb total ops c rs w = Some (w', rs') →
    progress w' =
    progress w ++
      (if cb then (λ i, (i, total)) <$> seq (S c) (length ops) else []).
Proof.
  induction ops as [|op ops IH]; intros c rs w w' rs'; simpl.
  { intros [= <- _]. destruct cb; by rewrite app_nil_r. }
  destruct (undo_one op (fs w)) as [[fs' r]|]; [|done]. simpl.
  intros ->%IH. rewrite progress_notify. simpl.
  destruct cb; by rewrite <- app_assoc.
Qed.

(** After each operation of the batch, restored or not, [undo_last] calls
    the progress callback once: with [(1, n)], [(2, n)], ..., [(n, n)] for
    a batch of [n] operations, in this order; with an empty ledger, or
    without a callback, nothing is called. *)
Theorem undo_last_progress (cb : bool) (w w' : World) (r : UndoResult) :
  undo_last cb w = Some (w', r) →
  progress w' =
  progress w ++
    match undo_file w with
    | Some record =>
        let n := length (operations record) in
        if cb then (λ i, (i, n)) <$> seq 1 n else []
    | None => []
    end.
Proof.
  unfold undo_last, load_undo_record. destruct (undo_file w) as [record|].
  - destruct (undo_loop _ _ _ _ _ _) as [[w1 rs]|] eqn:Hloop; [|done].
    simpl. intros [= <- _]. apply undo_loop_progress in Hloop.
    by rewrite length_rev in Hloop.
  - intros [= <- _]. by rewrite app_nil_r.
Qed.

(** ** Moves of regular files leave the other entries alone *)

(** Moving something that is not a directory to a free path changes the
    entry moved and the free path, nothing else, whether it succeeds or
    raises; directories stay the directories they were. *)
Lemma shutil_move_file_frame (src p : Path) (fs fs' : FS) (r : result unit) :
  is_dir fs src = false → path_exists fs p = false →
  shutil_move src p fs = (fs', r) →
  (∀ q, is_dir fs' q = is_dir fs q) ∧
  (∀ q x, q ≠ src → fs !! q = Some x → fs' !! q = Some x).
Proof.
  intros Hnd Hp.
  assert (Hpd : is_dir fs p = false).
  { destruct (is_dir fs p) eqn:Hd; [|done].
    apply is_dir_exists in Hd. congruence. }
  destruct p as [|c p]; [done|]. apply path_exists_cons_false in Hp.
  unfold shutil_move. rewrite Hpd. simpl. unfold rename_or_copy.
  unfold is_dir in Hnd. destruct src as [|cs src]; [done|].
  destruct (node_at fs (cs :: src)) as [[mtime data|]|] eqn:Hsrc; try done.
  - destruct (node_at fs (parent (c :: p))) as [[| ]|];
      intros [= <- <-]; try done.
    split; [intros q; by apply is_dir_rename_file|].
    intros q x Hq Hx. rewrite lookup_insert_ne by congruence.
    by rewrite lookup_delete_ne.
  - by intros [= <- <-].
Qed.

Lemma move_one_frame (d dst : Path) (dry : bool) (src : Path) (fs fs' : FS)
    (r : Outcome) :
  is_dir fs src = false →
  move_one d dst dry src fs = Some (fs', r) →
  (∀ q, is_dir fs' q = is_dir fs q) ∧
  (∀ q x, q ≠ src → fs !! q = Some x → fs' !! q = Some x).
Proof.
  intros Hnd. unfold move_one.
  destruct (_unique_dest fs d (name src)) as [p|] eqn:Hp; [|done]. simpl.
  apply _unique_dest_free in Hp.
  destruct dry; [by intros [= <- _]|].
  destruct (shutil_move src p fs) as [fs1 [[]|e]] eqn:Hmv; intros [= <- _];
    by eapply shutil_move_file_frame.
Qed.


(** Directories after a successful [mkdir] are those from before and the
    ones made at the path or above it. *)
Lemma mkdir_is_dir_inv (p : Path) (fs fs' : FS) (r : result unit) (q : Path) :
  mkdir p fs = (fs', r) → is_dir fs' q = true →
  is_dir fs q = true ∨ q `suffix_of` p.
Proof.
  intros Hmk Hd. destruct q as [|c q]; [by left|].
  destruct (mkdir_lookup _ _ _ _ Hmk (c :: q)) as [Heq|(Hsuf & _)]; [|by right].
  left. unfold is_dir, node_at in *. by rewrite <- Heq.
Qed.


(** ** Where the files go *)

(** In a directory, [_unique_dest] names a path directly inside it. *)
Lemma _unique_dest_inside (fs : FS) (d : Path) (f : string) (p : Path) :
  is_dir fs d = true → _unique_dest fs d f = Some p → ∃ c, p = c :: d.
Proof.
  intros Hd. unfold _unique_dest, joinpath.
  destruct (decide (f = "")) as [->|Hf].
  - rewrite (is_dir_exists _ _ Hd). cbn [negb].
    intros (n & _ & -> & _)%unique_dest_loop_Some.
    rewrite candidate_cons. by eexists.
  - destruct (path_exists fs (f :: d)); cbn [negb].
    + intros (n & _ & -> & _)%unique_dest_loop_Some.
      rewrite candidate_cons. by eexists.
    + intros [= <-]. by eexists.
Qed.

Lemma move_one_inside (d dst : Path) (dry : bool) (src : Path) (fs fs' : FS)
    (r : Outcome) :
  is_dir fs d = true →
  move_one d dst dry src fs = Some (fs', r) →
  (∃ e, op_action r = Error e) ∨ ∃ c, op_dest r = c :: d.
Proof.
  intros Hd. unfold move_one.
  destruct (_unique_dest fs d (name src)) as [p|] eqn:Hp; [|done]. simpl.
  apply (_unique_dest_inside _ _ _ _ Hd) in Hp as [c ->].
  destruct dry; [intros [= _ <-]; right; by eexists|].
  destruct (shutil_move src (c :: d) fs) as [fs1 [[]|e]]; intros [= _ <-];
    simpl; eauto.
Qed.

Lemma move_loop_inside (d dst : Path) (dry cb : bool) (total : nat)
    (files : list Path) :
  ∀ c rs w w' rs',
    is_dir (fs w) d = true →
    Forall (λ p, is_dir (fs w) p = false) files →
    Forall (λ r, (∃ e, op_action r = Error e) ∨ ∃ c, op_dest r = c :: d) rs →
    move_loop d dst dry cb total files c rs w = Some (w', rs') →
    Forall (λ r, (∃ e, op_action r = Error e) ∨ ∃ c, op_dest r = c :: d) rs'.
Proof.
  induction files as [|src files IH]; intros c rs w w' rs' Hd Hfiles Hrs; simpl.
  { by intros [= _ <-]. }
  apply Forall_cons in Hfiles as [Hnd Hfiles].
  destruct (move_one d dst dry src (fs w)) as [[fs' r]|] eqn:Hone; [|done].
  simpl. pose proof (move_one_inside _ _ _ _ _ _ _ Hd Hone) as Hr.
  apply (move_one_frame _ _ _ _ _ _ _ Hnd) in Hone as [Hdirs _].
  apply IH.
  - rewrite fs_notify. simpl. by rewrite Hdirs.
  - rewrite fs_notify. simpl.
    eapply Forall_impl; [exact Hfiles|]. simpl. intros q Hq. by rewrite Hdirs.
  - apply Forall_app. split; [done|]. by constructor.
Qed.

(** When none of [files] is a directory, nor the destination or a
    directory above it, every file that is moved, or would be in a dry run,
    goes directly into the destination directory: the [dest] of its outcome
    is a path [destination/name]. *)
Theorem move_files_dest_inside (files : list Path) (destination : Path)
    (dry_run cb : bool) (w w' : World) (results : list Outcome) :
  Forall (λ p, is_dir (fs w) p = false ∧ ¬ p `suffix_of` destination) files →
  move_files files destination dry_run cb w = Some (w', Return results) →
  Forall (λ r, op_action r = Moved ∨ op_action r = WouldMove →
               ∃ c, op_dest r = c :: destination) results.
Proof.
  intros Hfiles. unfold move_files.
  destruct (mkdir destination (fs w)) as [fs1 [[]|e]] eqn:Hmk; [|done].
  destruct (move_loop _ _ _ _ _ _ _ _ _) as [[w1 rs]|] eqn:Hloop; [|done].
  simpl. intros [= _ <-].
  apply move_loop_inside in Hloop.
  - eapply Forall_impl; [exact Hloop|]. simpl.
    intros r [[e He]|Hc] [Hm|Hm]; try done; congruence.
  - simpl. by eapply mkdir_Return_is_dir.
  - simpl. eapply Forall_impl; [exact Hfiles|]. simpl. intros p [Hnd Hns].
    destruct (is_dir fs1 p) eqn:Hd; [|done].
    destruct (mkdir_is_dir_inv _ _ _ _ _ Hmk Hd); congruence.
  - constructor.
Qed.

(** ** Running a rule on what it matches *)



Section MatchAndRun.

Variable strptime : string → option datetime.





End MatchAndRun.

(** ** Undo of entries that are no longer there, or in the way *)

Lemma elem_of_rev {A : Type} (x : A) (l : list A) : x ∈ rev l ↔ x ∈ l.
Proof. rewrite !list_elem_of_In. symmetry. apply in_rev. Qed.

Lemma undo_loop_all_skipped (cb : bool) (total : nat) (ops : list Outcome) :
  ∀ c rs w,
    Forall (λ op, path_exists (fs w) (op_dest op) = false) ops →
    ∃ w', undo_loop cb total ops c rs w =
            Some (w', rs ++ ((λ op, mkOutcome (op_dest op) (op_source op)
                                      SkippedNotFound) <$> ops)) ∧
          fs w' = fs w ∧ undo_file w' = undo_file w.
Proof.
  induction ops as [|op ops IH]; intros c rs w Hops; simpl.
  { exists w. by rewrite app_nil_r. }
  apply Forall_cons in Hops as [Hop Hops].
  unfold undo_one. rewrite Hop. simpl.
  destruct (IH (S c) (rs ++ [mkOutcome (op_dest op) (op_source op)
                               SkippedNotFound])
              (notify cb (S c) total (set_fs (fs w) w)))
    as (w' & -> & Hfs & Hled).
  { by rewrite fs_notify. }
  exists w'. rewrite <- app_assoc. split; [done|].
  by rewrite Hfs, Hled, fs_notify, undo_file_notify.
Qed.

(** When nothing is left at any recorded [dest], [undo_last] moves nothing:
    it reports every entry of the batch as [skipped_not_found], last entry
    first, leaves the file system as it is, and still empties the ledger. *)
Theorem undo_last_all_skipped (cb : bool) (w : World) (record : UndoRecord) :
  undo_file w = Some record →
  Forall (λ op, path_exists (fs w) (op_dest op) = false) (operations record) →
  ∃ w',
    undo_last cb w =
      Some (w', UndoOk ((λ op, mkOutcome (op_dest op) (op_source op)
                                 SkippedNotFound) <$> rev (operations record))) ∧
    fs w' = fs w ∧ undo_file w' = None.
Proof.
  intros Hrec Hops. unfold undo_last, load_undo_record. rewrite Hrec.
  destruct (undo_loop_all_skipped cb (length (operations record))
              (rev (operations record)) 0 [] w) as (w' & -> & Hfs & _).
  { apply Forall_forall. intros op Hop. rewrite Forall_forall in Hops.
    by apply Hops, elem_of_rev. }
  by exists (unlink_undo_file w').
Qed.




(** ** Dry runs and the ledger *)

(** A dry run of the worker never writes the ledger: what was recorded for
    the last real batch stays. *)
Theorem worker_dry_run_keeps_ledger (now : string) (matched_files : list Path)
    (org : Rule) (w w' : World) (msg : WorkerMessage) :
  worker now matched_files org true w = Some (w', msg) →
  undo_file w' = undo_file w.
Proof.
  unfold worker, move_files.
  destruct (mkdir (destination org) (fs w)) as [fs1 [[]|e]]; simpl.
  - destruct (move_loop_spec (destination org) (destination org) true true
                (length matched_files) matched_files 0 [] (set_fs fs1 w))
      as (w1 & results & -> & _ & Hled & _).
    simpl. by intros [= <- _].
  - by intros [= <- _].
Qed.

(** * The registry of rules *)

(** ** Trimming, lowering, splitting *)

Section Trim.

















(** ** Commas *)











End Trim.

(** ** Keywords *)











(** ** Duplicating a rule *)

Section Duplicate.

Import Registry.

Variables (orgs : gmap string Org) (base : string).

Lemma numbered_inj : Inj (=) (=) (λ i : nat, base +:+ " " +:+ pretty i).
Proof.
  intros i j Heq.
  apply (inj (String.append base)), (inj (String.append " ")) in Heq.
  by apply (inj pretty) in Heq.
Qed.

Lemma numbered_ne_base (i : nat) : base +:+ " " +:+ pretty i ≠ base.
Proof.
  intros Heq. apply (f_equal String.length) in Heq.
  rewrite length_append, append_String in Heq. simpl in Heq. lia.
Qed.

(** The name the loop settles on is free; it is the name it started with
    or a numbered one, every numbered name before it being taken. *)
Lemma duplicate_loop_Some (fuel i : nat) (new_name r : string) :
  duplicate_loop fuel orgs base i new_name = Some r →
  orgs !! r = None ∧
  (r = new_name ∨
   is_Some (orgs !! new_name) ∧
   ∃ j, i < j ∧ r = base +:+ " " +:+ pretty j ∧
        ∀ m, i < m < j → is_Some (orgs !! (base +:+ " " +:+ pretty m))).
Proof.
  revert i new_name. induction fuel as [|fuel IH]; intros i new_name; [done|].
  simpl. case_bool_decide as Hin.
  - intros (Hfree & Hr)%IH. split; [done|]. right. split; [done|].
    destruct Hr as [->|(Htaken & j & Hj & -> & Hbefore)].
    + exists (S i). split_and!; [lia|done|]. intros m Hm. lia.
    + exists j. split_and!; [lia|done|]. intros m Hm.
      destruct (decide (m = S i)) as [->|]; [done|]. apply Hbefore. lia.
  - intros [= <-]. split; [|by left].
    by apply eq_None_not_Some.
Qed.

Lemma duplicate_loop_None (fuel i : nat) (new_name : string) :
  duplicate_loop fuel orgs base i new_name = None →
  0 < fuel → 
  is_Some (orgs !! new_name) ∧
  ∀ m, i < m < i + fuel → is_Some (orgs !! (base +:+ " " +:+ pretty m)).
Proof.
  revert i new_name. induction fuel as [|fuel IH]; intros i new_name; [lia|].
  simpl. case_bool_decide as Hin; [|done]. intros Hloop _. split; [done|].
  destruct fuel as [|fuel]; [intros m Hm; lia|].
  apply IH in Hloop as [Hfirst Hrest]; [|lia].
  intros m Hm. destruct (decide (m = S i)) as [->|]; [done|].
  apply Hrest. lia.
Qed.

(** There are more names to try than there are rules. *)
Lemma duplicate_loop_enough :
  is_Some (duplicate_loop (S (size orgs)) orgs base 1 base).
Proof.
  destruct (duplicate_loop _ _ _ _ _) eqn:Hloop; [by eexists|].
  apply duplicate_loop_None in Hloop as [Hbase Hnum]; [|lia].
  pose (names := base :: ((λ i : nat, base +:+ " " +:+ pretty i)
                            <$> seq 2 (size orgs))).
  assert (Hsub : list_to_set (C := gset string) names ⊆ dom orgs).
  { intros x [->|[m [-> Hm]]%list_elem_of_fmap]%elem_of_list_to_set%elem_of_cons.
    - by apply elem_of_dom.
    - apply elem_of_dom, Hnum. apply elem_of_seq in Hm. lia. }
  apply subseteq_size in Hsub.
  rewrite size_list_to_set, size_dom in Hsub.
  - unfold names in Hsub. simpl in Hsub.
    rewrite length_fmap, length_seq in Hsub. lia.
  - unfold names. apply NoDup_cons. split.
    + intros [m [Heq _]]%list_elem_of_fmap. symmetry in Heq.
      by apply numbered_ne_base in Heq.
    + apply NoDup_fmap_2; [apply numbered_inj|apply NoDup_seq].
Qed.

End Duplicate.

Section RegistryProperties.

Import Registry.

(** [duplicate_organization] always returns.  For a registered rule whose
    name is not the placeholder it adds one entry, a copy of the rule under
    a name that was free: the name followed by " (cópia)", or by that and
    the first number from 2 on that makes it free; it changes no other
    entry and writes the registry to the file.  Otherwise it changes
    nothing. *)
Theorem duplicate_organization_spec (org_name : string) (app : App) :
  ∃ app' dlg,
    duplicate_organization org_name app = Some (app', dlg) ∧
    match organizations app !! org_name with
    | Some org =>
        if decide (org_name = placeholder) then app' = app ∧ dlg = Warning
        else
          ∃ new_name,
            dlg = Info new_name ∧
            organizations app !! new_name = None ∧
            organizations app' = <[new_name := org]> (organizations app) ∧
            config_file app' = organizations app' ∧
            (new_name = org_name +:+ " (cópia)" ∨
             ∃ j, 2 ≤ j ∧
               new_name = (org_name +:+ " (cópia)") +:+ " " +:+ pretty j ∧
               ∀ m, 2 ≤ m < j →
                 is_Some (organizations app !!
                            ((org_name +:+ " (cópia)") +:+ " " +:+ pretty m)))
    | None => app' = app ∧ dlg = Warning
    end.
Proof.
  unfold duplicate_organization.
  destruct (organizations app !! org_name) as [org|]; [|by eexists _, _].
  destruct (decide (org_name = placeholder)) as [->|Hne].
  { rewrite String.eqb_refl. by eexists _, _. }
  apply String.eqb_neq in Hne as ->.
  destruct (duplicate_loop_enough (organizations app)
              (org_name +:+ " (cópia)")) as [new_name Hloop].
  rewrite Hloop. simpl. eexists _, _. split; [done|].
  exists new_name. apply duplicate_loop_Some in Hloop as [Hfree Hname].
  split_and!; [done..|].
  destruct Hname as [->|(_ & j & Hj & -> & Hbefore)]; [by left|].
  right. exists j. split_and!; [lia|done|]. intros m Hm. apply Hbefore. lia.
Qed.

(** ** Saving a rule *)

Section Save.

Variable strptime : string → option datetime.

Lemma first_bad_date_None (dates : list string) :
  first_bad_date strptime dates = None →
  Forall (λ d, d = "" ∨ is_Some (strptime d)) dates.
Proof.
  induction dates as [|d dates IH]; [constructor|]. simpl.
  destruct (String.eqb_spec d "") as [->|Hne]; simpl.
  - intros ?%IH. constructor; [by left|done].
  - case_bool_decide as Hd; simpl; [|done].
    intros ?%IH. constructor; [by right|done].
Qed.


(** What [save_organization] has checked and stored when it ends with the
    success dialog. *)
Lemma save_organization_Info (askyesno : bool) (app app' : App) (name : string) :
  save_organization strptime askyesno app = (app', Info name) →
  let f := form app in
  let org := mkOrg (strip (source_entry f))
               (parse_keywords (strip (keywords_entry f)))
               (strip (dest_entry f)) (date_filter_checkbox f)
               (strip (start_entry f)) (strip (end_entry f)) in
  name = strip (name_entry f) ∧ name ≠ "" ∧
  o_source org ≠ "" ∧ o_destination org ≠ "" ∧
  (date_filter_checkbox f = true →
   Forall (λ d, d = "" ∨ is_Some (strptime d))
          [o_start_date org; o_end_date org]) ∧
  (organizations app' = <[name := org]> (organizations app) ∨
   ∃ original,
     editing_org_original_name app = Some original ∧ original ≠ "" ∧
     name ≠ original ∧
     organizations app' = <[name := org]> (delete original (organizations app))) ∧
  config_file app' = organizations app' ∧
  editing_org_original_name app' = None.
Proof.
  unfold save_organization. cbn [forallb].
  destruct (String.eqb_spec (strip (name_entry (form app))) "") as [|Hn];
    [done|].
  destruct (String.eqb_spec (strip (source_entry (form app))) "") as [|Hs];
    [done|].
  destruct (String.eqb_spec (strip (keywords_entry (form app))) "") as [|Hk];
    [done|].
  destruct (String.eqb_spec (strip (dest_entry (form app))) "") as [|Hd];
    [done|].
  cbn [negb andb].
  destruct (if date_filter_checkbox (form app) then _ else _) eqn:Hdates;
    [done|].
  assert (Hok : date_filter_checkbox (form app) = true →
    Forall (λ d, d = "" ∨ is_Some (strptime d))
      [strip (start_entry (form app)); strip (end_entry (form app))]).
  { intros Hen. rewrite Hen in Hdates. by apply first_bad_date_None. }
  intros Hres. cbn zeta.
  destruct (editing_org_original_name app) as [original|] eqn:Hed.
  - destruct (String.eqb_spec original "") as [->|Ho].
    + destruct (_ && negb askyesno); [done|].
      injection Hres as <- <-. split_and!; try done. by left.
    + destruct (String.eqb_spec (strip (name_entry (form app))) original)
        as [Heq|Hneq]; cbn [negb andb] in Hres.
      * injection Hres as <- <-. split_and!; try done. by left.
      * destruct (_ && negb askyesno); [done|].
        injection Hres as <- <-. split_and!; try done. right.
        exists original. by split_and!.
  - destruct (_ && negb askyesno); [done|].
    injection Hres as <- <-. split_and!; try done. by left.
Qed.



(** Whenever [save_organization] ends with another dialog than the success
    one, or with none, it has changed nothing. *)
Theorem save_organization_rejects (askyesno : bool) (app app' : App)
    (dlg : Dialog) :
  save_organization strptime askyesno app = (app', dlg) →
  (∀ name, dlg ≠ Info name) → app' = app.
Proof.
  unfold save_organization.
  repeat (case_match; try (by intros [= <- _])); intros [= _ <-] Hd;
    by destruct (Hd (strip (name_entry (form app)))).
Qed.

(** Renaming.  Saving a rule that is being edited under another name
    removes the entry of the old name; the entries of all other names stay
    as they are. *)
Theorem save_organization_renames (askyesno : bool) (app app' : App)
    (original name : string) :
  editing_org_original_name app = Some original → original ≠ "" →
  save_organization strptime askyesno app = (app', Info name) →
  name ≠ original →
  organizations app' !! original = None ∧
  is_Some (organizations app' !! name) ∧
  ∀ k, k ≠ name → k ≠ original →
       organizations app' !! k = organizations app !! k.
Proof.
  intros Hed Ho Hsave Hne. unfold save_organization in Hsave.
  rewrite Hed in Hsave. cbn zeta in Hsave.
  destruct (negb (forallb _ _)); [done|].
  destruct (if date_filter_checkbox (form app) then _ else _); [done|].
  destruct (String.eqb_spec original "") as [|_]; [done|].
  destruct (String.eqb_spec (strip (name_entry (form app))) original)
    as [Heq|Hneq]; cbn [negb andb] in Hsave.
  - injection Hsave as _ <-. by destruct Hne.
  - destruct (_ && negb askyesno); [done|]. injection Hsave as <- <-.
    simpl. split_and!.
    + by rewrite lookup_insert_ne, lookup_delete_eq.
    + rewrite lookup_insert_eq. by eexists.
    + intros k Hk1 Hk2. by rewrite lookup_insert_ne, lookup_delete_ne.
Qed.


End Save.

(** ** Deleting, exporting, importing *)

Lemma import_loop_spec (askyesno : string → bool) (items : list (string * Org)) :
  ∀ orgs added orgs' added',
    NoDup items.*1 →
    import_loop askyesno items orgs added = (orgs', added') →
    (∀ k v, (k, v) ∈ items →
       orgs' !! k =
         if bool_decide (is_Some (orgs !! k)) && negb (askyesno k)
         then orgs !! k else Some v) ∧
    (∀ k, k ∉ items.*1 → orgs' !! k = orgs !! k) ∧
    added' =
      added +
      length (List.filter
                (λ kv, negb (bool_decide (is_Some (orgs !! kv.1)) &&
                             negb (askyesno kv.1))) items).
Proof.
  induction items as [|[k v] items IH]; intros orgs added orgs' added' Hnd.
  { simpl. intros [= <- <-]. split_and!; [by intros ?? ?%elem_of_nil|done|lia]. }
  rewrite fmap_cons in Hnd. apply NoDup_cons in Hnd as [Hk Hnd]. simpl in Hk.
  simpl.
  assert (Hother : ∀ (m : gmap string Org) k' x,
            k' ∈ items.*1 → <[k := x]> m !! k' = m !! k').
  { intros m k' x Hk'. apply lookup_insert_ne. by intros ->. }
  assert (Hfilter : ∀ x,
    List.filter (λ kv, negb (bool_decide (is_Some (<[k := x]> orgs !! kv.1)) &&
                             negb (askyesno kv.1))) items =
    List.filter (λ kv, negb (bool_decide (is_Some (orgs !! kv.1)) &&
                             negb (askyesno kv.1))) items).
  { intros x. apply filter_ext_in. intros [k' v'] Hin. simpl.
    rewrite Hother; [done|].
    apply list_elem_of_fmap. exists (k', v'). split; [done|].
    by apply list_elem_of_In. }
  destruct (bool_decide (is_Some (orgs !! k)) && negb (askyesno k)) eqn:Hskip.
  - intros (Hin & Hout & ->)%IH; [|done]. simpl. split_and!; [| |done].
    + intros k' v' [[= -> ->]|Hin']%elem_of_cons.
      * rewrite Hskip. by apply Hout.
      * by apply Hin.
    + intros k' [Hk1 Hk2]%not_elem_of_cons. by apply Hout.
  - intros (Hin & Hout & ->)%IH; [|done]. simpl. rewrite Hfilter.
    split_and!; [| |lia].
    + intros k' v' [[= -> ->]|Hin']%elem_of_cons.
      * rewrite Hskip, Hout by done. apply lookup_insert_eq.
      * rewrite (Hin _ _ Hin'), Hother; [done|].
        apply list_elem_of_fmap. by exists (k', v').
    + intros k' [Hk1 Hk2]%not_elem_of_cons.
      rewrite Hout by done. by apply lookup_insert_ne.
Qed.

(** [import_organization] stores every rule of the file whose name is new
    or whose overwriting the user accepts, as it is in the file; a rule
    whose overwriting the user declines stays as it was, and so does every
    rule whose name is not in the file.  The number it reports is the number
    of rules it has stored, and the registry is written to the file. *)
Theorem import_organization_spec (items : list (string * Org))
    (askyesno : string → bool) (app app' : App) (dlg : Dialog) (added : nat) :
  NoDup items.*1 →
  import_organization (Some (Some items)) askyesno app = (app', dlg, added) →
  (∀ k v, (k, v) ∈ items →
     organizations app' !! k =
       if bool_decide (is_Some (organizations app !! k)) && negb (askyesno k)
       then organizations app !! k else Some v) ∧
  (∀ k, k ∉ items.*1 → organizations app' !! k = organizations app !! k) ∧
  added =
    length (List.filter
              (λ kv, negb (bool_decide (is_Some (organizations app !! kv.1)) &&
                           negb (askyesno kv.1))) items) ∧
  config_file app' = organizations app'.
Proof.
  intros Hnd. unfold import_organization.
  destruct (import_loop askyesno items (organizations app) 0)
    as [orgs added'] eqn:Hloop.
  intros [= <- _ <-]. simpl.
  apply import_loop_spec in Hloop as (Hin & Hout & ->); [|done].
  by split_and!.
Qed.

(** Export, delete, import.  A rule that has been exported can be deleted
    and brought back: importing the exported file after the deletion gives
    the registry as it was before. *)
Theorem export_delete_import (org_name : string) (askyesno : string → bool)
    (app app1 app2 : App) (data : list (string * Org)) (d2 : Dialog)
    (added : nat) :
  export_organization org_name true app = Some data →
  delete_organization org_name true app = (app1, Info org_name) →
  import_organization (Some (Some data)) askyesno app1 = (app2, d2, added) →
  organizations app2 = organizations app ∧ added = 1 ∧
  config_file app2 = organizations app.
Proof.
  unfold export_organization, delete_organization, import_organization.
  destruct (organizations app !! org_name) as [org|] eqn:Horg; [|done].
  destruct (String.eqb org_name placeholder); [done|].
  intros [= <-].
  destruct (String.eqb org_name ""); simpl; [done|].
  intros [= <-]. simpl.
  rewrite lookup_delete_eq. rewrite bool_decide_false by (by intros [? ?]).
  simpl. intros [= <- _ <-]. simpl.
  by rewrite insert_delete_eq, insert_id.
Qed.

End RegistryProperties.

(** * Names that are taken *)

(** ** A second file of the same name *)







(** ** Undo when the original place is taken *)


(** ** A rule named like the placeholder *)

Section Placeholder.

Import Registry.

(** The form accepts the text that the combobox shows when there is no
    rule as the name of a rule.  Such a rule is stored, but the buttons
    take its name for an empty selection: it cannot be deleted, edited,
    duplicated or exported. *)
Theorem placeholder_rule_is_stuck (strptime : string → option datetime)
    (askyesno : bool) (app app' : App) :
  save_organization strptime askyesno app = (app', Info placeholder) →
  is_Some (organizations app' !! placeholder) ∧
  (∀ a, delete_organization placeholder a app' = (app', Warning)) ∧
  edit_organization placeholder app' = (app', Warning) ∧
  duplicate_organization placeholder app' = Some (app', Warning) ∧
  (∀ b, export_organization placeholder b app' = None).
Proof.
  intros (_ & _ & _ & _ & _ & Horgs & _)%save_organization_Info.
  assert (Hin : is_Some (organizations app' !! placeholder)).
  { destruct Horgs as [->|(? & _ & _ & _ & ->)];
      rewrite lookup_insert_eq; by eexists. }
  destruct Hin as [org Horg].
  unfold delete_organization, edit_organization, duplicate_organization,
    export_organization. rewrite Horg. by split_and!.
Qed.

End Placeholder.

(** ** The claims on the example worlds *)

Section Examples.

Import Scenario.

Example get_matched_files_invoices :
  get_matched_files strptime_ex org_invoices fs_invoices
  = Return [["Invoice_JAN.pdf"; "in"]].
Proof. vm_compute. reflexivity. Qed.

Example get_matched_files_start_later :
  get_matched_files strptime_ex
    {| source := ["in"]; keywords := ["invoice"]; destination := out;
       date_filter_enabled := true;
       start_date := Some "2024-02-01"; end_date := None |} fs_invoices
  = Return [].
Proof. vm_compute. reflexivity. Qed.

Example unique_dest_twice :
  _unique_dest fs_in ["in"] "n.txt" = Some ["n.txt"; "in"] ∧
  _unique_dest (<[["n.txt"; "in"] := File None ""]> fs_in) ["in"] "n.txt"
    = Some ["n (1).txt"; "in"].
Proof. vm_compute. done. Qed.


(** C4 does not hold as it is written: a real run in which no file could be
    moved leaves the ledger as it was, here with the record of an earlier
    batch. *)
Lemma worker_without_moved_keeps_ledger :
  worker "t1" [b_txt] org_in false (mkWorld fs_in (Some earlier) [])
  = Some (mkWorld (<[out := Dir]> fs_in) (Some earlier) [(1, 1)],
          Done [mkOutcome b_txt out (Error FileNotFoundError)]).
Proof. vm_compute. reflexivity. Qed.

Example worker_batch_ab :
  worker "t1" [a_txt; b_txt] org_in false w_in = Some (w_ab, Done batch_ab).
Proof. vm_compute. reflexivity. Qed.

(** C3 fails on the code.  The entry of the batch whose action is an error
    has the destination directory as its [dest]; that directory exists, so
    [undo_last] does not skip the entry: it moves the whole directory to the
    path of the file that could not be moved and reports [restored]. *)
Theorem undo_moves_destination_for_error_entry :
  undo_last false w_ab
  = Some (mkWorld
            (<[["a.txt"; "b.txt"; "in"] := File (Some 5%Z) "A"]>
               (<[b_txt := Dir]>
                  (<[c_txt := File (Some 7%Z) "C"]> (<[["in"] := Dir]> ∅))))
            None [(1, 2); (2, 2)],
          UndoOk [mkOutcome out b_txt Restored;
                  mkOutcome ["a.txt"; "out"] a_txt SkippedNotFound]).
Proof. vm_compute. reflexivity. Qed.

(** C1 fails on the code.  A real run over [a.txt], the missing [b.txt] and
    [c.txt] moves the first and the last; the undo that follows restores
    [c.txt], then moves the destination directory to [/in/b.txt] for the
    error entry, and so no longer finds [a.txt]: it is not back at its
    original path but at [/in/b.txt/a.txt]. *)
Theorem undo_after_error_loses_moved_file :
  ∃ w1 w2,
    worker "t1" [a_txt; b_txt; c_txt] org_in false w_in
    = Some (w1, Done [mkOutcome a_txt ["a.txt"; "out"] Moved;
                      mkOutcome b_txt out (Error FileNotFoundError);
                      mkOutcome c_txt ["c.txt"; "out"] Moved]) ∧
    undo_last false w1
    = Some (w2, UndoOk [mkOutcome ["c.txt"; "out"] c_txt Restored;
                        mkOutcome out b_txt Restored;
                        mkOutcome ["a.txt"; "out"] a_txt SkippedNotFound]) ∧
    fs w2 !! c_txt = Some (File (Some 7%Z) "C") ∧
    fs w2 !! a_txt = None ∧
    fs w2 !! b_txt = Some Dir ∧
    fs w2 !! ["a.txt"; "b.txt"; "in"] = Some (File (Some 5%Z) "A").
Proof.
  eexists _, _. split; [vm_compute; reflexivity|].
  split; [vm_compute; reflexivity|]. vm_compute. done.
Qed.

(** The theorems with a premise, at the example worlds. *)


Lemma move_files_mkdir_failure_witness :
  move_files [c_txt] ["out"; "a.txt"; "in"] false true w_in
  = Some (w_in, Raise NotADirectoryError).
Proof.
  apply (move_files_mkdir_failure _ _ false true w_in fs_in).
  vm_compute. reflexivity.
Defined.




End Examples.

(** ** The further properties on the example worlds *)

Section Cases.

Import Scenario Registry Cases.



Lemma move_files_progress_witness :
  ∃ w' results,
    move_files [a_txt; b_txt; c_txt] out false true w_in
      = Some (w', Return results) ∧
    progress w' = [(1, 3); (2, 3); (3, 3)].
Proof.
  eexists _, _. split; [vm_compute; reflexivity|].
  eapply (move_files_progress [a_txt; b_txt; c_txt] out false true w_in _ _).
  vm_compute. reflexivity.
Defined.

Lemma undo_last_progress_witness :
  ∃ w' r,
    undo_last true w_ab = Some (w', r) ∧
    progress w' = [(1, 2); (2, 2)] ++ [(1, 2); (2, 2)].
Proof.
  eexists _, _. split; [vm_compute; reflexivity|].
  eapply (undo_last_progress true w_ab _ _).
  vm_compute. reflexivity.
Defined.


Lemma move_files_dest_inside_witness :
  Forall (λ r, op_action r = Moved ∨ op_action r = WouldMove →
               ∃ c, op_dest r = c :: out) batch_ab.
Proof.
  apply (move_files_dest_inside [a_txt; b_txt] out false false w_in
           (mkWorld fs_ab None [])).
  - apply (bool_decide_unpack _). vm_compute. exact I.
  - vm_compute. reflexivity.
Defined.



Lemma undo_last_all_skipped_witness :
  ∃ w',
    undo_last true w_earlier =
      Some (w', UndoOk [mkOutcome ["x"; "old"] ["x"; "in"] SkippedNotFound]) ∧
    fs w' = fs_in ∧ undo_file w' = None.
Proof.
  apply (undo_last_all_skipped true w_earlier earlier).
  - reflexivity.
  - repeat constructor.
Defined.


Lemma worker_dry_run_keeps_ledger_witness :
  ∃ w' msg,
    worker "t1" [a_txt] org_in true w_earlier = Some (w', msg) ∧
    undo_file w' = Some earlier.
Proof.
  eexists _, _. split; [vm_compute; reflexivity|].
  eapply (worker_dry_run_keeps_ledger "t1" [a_txt] org_in w_earlier _ _).
  vm_compute. reflexivity.
Defined.

Lemma move_files_error_dest_witness :
  move_files [a_txt; b_txt] out false false w_in
    = Some (mkWorld fs_ab None [], Return batch_ab) ∧
  op_dest (mkOutcome b_txt out (Error FileNotFoundError)) = out.
Proof.
  split; [vm_compute; reflexivity|].
  apply (move_files_error_dest [a_txt; b_txt] out false w_in
           (mkWorld fs_ab None []) batch_ab _ FileNotFoundError).
  - vm_compute. reflexivity.
  - repeat constructor.
  - reflexivity.
Defined.





Lemma save_organization_renames_witness :
  ∃ app',
    save_organization strptime_ex false app_renaming = (app', Info "Invoices") ∧
    organizations app' !! "Old" = None ∧
    is_Some (organizations app' !! "Invoices") ∧
    ∀ k, k ≠ "Invoices" → k ≠ "Old" →
         organizations app' !! k = organizations app_renaming !! k.
Proof.
  eexists. split; [vm_compute; reflexivity|].
  eapply (save_organization_renames strptime_ex false app_renaming _
           "Old" "Invoices").
  - reflexivity.
  - done.
  - vm_compute. reflexivity.
  - done.
Defined.


Lemma import_organization_spec_witness :
  ∃ app' dlg added,
    import_organization (Some (Some items_import)) (λ _, false) app_kept
      = (app', dlg, added) ∧
    (∀ k v, (k, v) ∈ items_import →
       organizations app' !! k =
         if bool_decide (is_Some (organizations app_kept !! k)) && negb false
         then organizations app_kept !! k else Some v) ∧
    (∀ k, k ∉ items_import.*1 →
       organizations app' !! k = organizations app_kept !! k) ∧
    added =
      length (List.filter
                (λ kv, negb (bool_decide
                               (is_Some (organizations app_kept !! kv.1)) &&
                             negb false)) items_import) ∧
    config_file app' = organizations app'.
Proof.
  eexists _, _, _. split; [vm_compute; reflexivity|].
  eapply (import_organization_spec items_import (λ _, false) app_kept _ _ _).
  - apply (bool_decide_unpack _). vm_compute. exact I.
  - vm_compute. reflexivity.
Defined.

Lemma export_delete_import_witness :
  ∃ app1 app2 d2 added,
    delete_organization "Invoices" true app_kept = (app1, Info "Invoices") ∧
    import_organization (Some (Some [("Invoices", org_kept)])) (λ _, false)
      app1 = (app2, d2, added) ∧
    organizations app2 = organizations app_kept ∧ added = 1 ∧
    config_file app2 = organizations app_kept.
Proof.
  eexists _, _, _, _. split; [vm_compute; reflexivity|].
  split; [vm_compute; reflexivity|].
  eapply (export_delete_import "Invoices" (λ _, false) app_kept _ _
           [("Invoices", org_kept)] _ _).
  - vm_compute. reflexivity.
  - vm_compute. reflexivity.
  - vm_compute. reflexivity.
Defined.

Lemma placeholder_rule_is_stuck_witness :
  ∃ app',
    save_organization strptime_ex false app_placeholder
      = (app', Info placeholder) ∧
    is_Some (organizations app' !! placeholder) ∧
    (∀ a, delete_organization placeholder a app' = (app', Warning)) ∧
    edit_organization placeholder app' = (app', Warning) ∧
    duplicate_organization placeholder app' = Some (app', Warning) ∧
    (∀ b, export_organization placeholder b app' = None).
Proof.
  eexists. split; [vm_compute; reflexivity|].
  eapply (placeholder_rule_is_stuck strptime_ex false app_placeholder _).
  vm_compute. reflexivity.
Defined.

End Cases.
